(** * Player event emitter

    A shallow embedding of
    [src/core/server/extensions/playerFunctions/emit.ts]: the per-player
    helper functions that forward one typed event to a connected client
    through the host runtime ([alt.emitClient]).

    The host runtime is observable through a [Host] state: the log of
    sends (each tagged with the scheduler tick in which it happened), the
    warning log, the queue of callbacks deferred with [alt.nextTick], and
    the store of JavaScript objects that arguments refer to. Every exported
    function is a computation in the state monad [M] over [Host]. *)

From Stdlib Require Import PrimFloat.
From stdpp Require Import base gmap list strings.

Set Warnings "-inexact-float,-register-all".

Local Open Scope string_scope.
Local Open Scope list_scope.

(** ** JavaScript values *)

(** A JavaScript [number] is an IEEE 754 binary64 float. *)
Abbreviation number := float (only parsing).

(** Object identity: a reference into the object store. *)
Abbreviation loc := nat (only parsing).

(** Data as the transport serialises it: a tree without references. An
    array is the object of its indices. *)
Inductive Data :=
  | DUndefined
  | DNull
  | DBool (b : bool)
  | DNum (n : number)
  | DStr (s : string)
  | DObj (props : gmap string Data).

(** The properties of one object. *)
Abbreviation Obj := (gmap string Data) (only parsing).

(** A value handed to a function: a primitive, or a reference to an object
    that the caller shares with the callee. *)
Inductive Value :=
  | VUndefined
  | VNull
  | VBool (b : bool)
  | VNum (n : number)
  | VStr (s : string)
  | VRef (l : loc).

(** JavaScript truthiness, as tested by [if (x)] and [!x]. *)
Definition truthy (d : Data) : bool :=
  match d with
  | DUndefined | DNull => false
  | DBool b => b
  | DNum n => negb (is_zero n || is_nan n)
  | DStr s => negb (String.eqb s "")
  | DObj _ => true
  end.

(** [o.key]: a missing property reads as [undefined]. *)
Definition prop (o : Obj) (key : string) : Data :=
  default DUndefined (o !! key).

(** ** Players and events *)

(** [player.data]: the only field this file reads is [isDead]. *)
Record PlayerData := { isDead : bool }.

(** [alt.Player]: the session handle and the character data attached to it.
    The functions of this file read [player.data.isDead] and hand the
    player to the transport; they never assign to it. *)
Record Player := { pid : nat; data : PlayerData }.

(** The event-name constants used by this file: the members of
    [SYSTEM_EVENTS], [View_Events_Chat.Append] and
    [View_Events_Input_Menu.SetMenu]. *)
Inductive EventName :=
  | PLAYER_EMIT_ANIMATION
  | PLAYER_EMIT_SCENARIO
  | META_SET
  | View_Events_Chat_Append
  | PLAYER_EMIT_NOTIFICATION
  | PLAY_PARTICLE_EFFECT
  | PROGRESSBAR_CREATE
  | PROGRESSBAR_REMOVE
  | PLAYER_EMIT_SOUND_2D
  | PLAYER_EMIT_SOUND_3D
  | PLAYER_EMIT_FRONTEND_SOUND
  | PLAYER_EMIT_TASK_TIMELINE
  | View_Events_Input_Menu_SetMenu
  | PLAYER_EMIT_SPINNER
  | PLAYER_EMIT_SPINNER_CLEAR
  | PLAYER_EMIT_ERROR_SCREEN
  | PLAYER_EMIT_ERROR_SCREEN_CLEAR.

(** [ANIMATION_FLAGS] is a numeric enum; its members are combined by the
    callers and arrive here as a number. *)
Abbreviation ANIMATION_FLAGS := number (only parsing).

(** ** The host runtime *)

(** One outbound event as a test transport records it: the addressee, the
    event name, the serialised positional arguments, and the scheduler tick
    during which it was sent. *)
Record Send := mkSend {
  to : nat;
  event : EventName;
  payload : list Data;
  at_tick : nat
}.

(** The closures this file hands to [alt.nextTick]. The only one is
    [() => alt.emitClient(player, event, ...args)] in [meta]; it captures
    its free variables. *)
Inductive Callback :=
  | EmitLater (player : Player) (ev : EventName) (args : list Value).

Record Host := mkHost {
  tick : nat;                 (* scheduler-tick counter *)
  sent : list Send;           (* sends, oldest first *)
  warnings : list string;     (* alt.logWarning lines, oldest first *)
  deferred : list Callback;   (* alt.nextTick queue, oldest first *)
  store : gmap loc Obj;       (* the objects arguments refer to *)
  draws : nat                 (* random draws consumed so far *)
}.

(** State monad over the host. *)
Definition M (A : Type) : Type := Host -> A * Host.

Definition ret {A} (a : A) : M A := fun h => (a, h).

Definition bind {A B} (m : M A) (k : A -> M B) : M B :=
  fun h => k (m h).1 (m h).2.

Notation "x <- m ;; k" := (bind m (fun x => k))
  (at level 100, m at next level, right associativity).
Notation "m ;; k" := (bind m (fun _ => k))
  (at level 100, right associativity).

(** The host state after a computation, and its result. *)
Definition exec {A} (m : M A) (h : Host) : Host := (m h).2.
Definition result {A} (m : M A) (h : Host) : A := (m h).1.

(** What the transport puts on the wire for one argument: a primitive as it
    is, an object as the snapshot of its properties at the time of the
    send. *)
Definition serialize (st : gmap loc Obj) (v : Value) : Data :=
  match v with
  | VUndefined => DUndefined
  | VNull => DNull
  | VBool b => DBool b
  | VNum n => DNum n
  | VStr s => DStr s
  | VRef l => DObj (st !!! l)
  end.

Module alt.

(** [alt.emitClient(player, eventName, ...args)] *)
Definition emitClient (player : Player) (ev : EventName) (args : list Value)
  : M unit :=
  fun h =>
    (tt, mkHost (tick h)
                (sent h ++ [mkSend (pid player) ev
                                   (serialize (store h) <$> args) (tick h)])
                (warnings h) (deferred h) (store h) (draws h)).

(** [alt.logWarning(message)] *)
Definition logWarning (message : string) : M unit :=
  fun h =>
    (tt, mkHost (tick h) (sent h) (warnings h ++ [message])
                (deferred h) (store h) (draws h)).

(** [alt.nextTick(callback)]: the callback runs once, in the next tick. *)
Definition nextTick (cb : Callback) : M unit :=
  fun h =>
    (tt, mkHost (tick h) (sent h) (warnings h)
                (deferred h ++ [cb]) (store h) (draws h)).

End alt.

(** Running a deferred closure is running its body. *)
Definition run_callback (cb : Callback) : M unit :=
  match cb with
  | EmitLater player ev args => alt.emitClient player ev args
  end.

(** One turn of the host's cooperative loop: the tick counter advances and
    the callbacks deferred during the previous tick run, in order. *)
Definition hostTick (h : Host) : Host :=
  foldl (fun h' cb => exec (run_callback cb) h')
        (mkHost (S (tick h)) (sent h) (warnings h) [] (store h) (draws h))
        (deferred h).

(** Property read and write on a shared object. *)
Definition get_prop (o : loc) (key : string) : M Data :=
  fun h => (prop (store h !!! o) key, h).

Definition set_prop (o : loc) (key : string) (v : Data) : M unit :=
  fun h =>
    (tt, mkHost (tick h) (sent h) (warnings h) (deferred h)
                (<[o := <[key := v]> (store h !!! o)]> (store h)) (draws h)).

Definition read_object (o : loc) : M Data :=
  fun h => (DObj (store h !!! o), h).

(** ** Collaborators outside this file *)

(** [import utility from './utility']: the spatial query. *)
Class Utility := {
  getClosestPlayers : Player -> number -> list Player
}.

(** What [../../utility/encryption] builds on: the JSON printer, the SHA-256
    digest, and the host's random source, of which [random_text i] is the
    [i]-th draw as it is spliced into the hashed text. *)
Class Digest := {
  JSON_stringify : Data -> string;
  sha256 : string -> string;
  random_text : nat -> string
}.

(** The next draw of the random source. *)
Definition next_random `{Digest} : M string :=
  fun h =>
    (random_text (draws h),
     mkHost (tick h) (sent h) (warnings h) (deferred h) (store h)
            (S (draws h))).

(** Modelled from the spec: [sha256Random] of [../../utility/encryption] is
    not part of the sources at hand. The identifier is "a hash of the full
    payload content combined with randomness": the digest of the given text
    followed by a fresh random draw. *)
Definition sha256Random `{Digest} (text : string) : M string :=
  salt <- next_random ;;
  ret (sha256 (text +:+ salt)).

(** ** The exported functions *)

Section Emit.
Context `{Utility} `{Digest}.

(** [function animation(player, dictionary, name, flags, duration = -1)] *)
Definition animation (player : Player) (dictionary name : string)
    (flags : ANIMATION_FLAGS) (duration : option number) : M unit :=
  let duration := default (-1)%float duration in
  if isDead (data player) then
    alt.logWarning ("[Athena] Cannot play " +:+ dictionary +:+ "@" +:+ name
                    +:+ " while player is dead.")
  else
    alt.emitClient player PLAYER_EMIT_ANIMATION
      [VStr dictionary; VStr name; VNum flags; VNum duration].

(** [function scenario(player, name, duration)] *)
Definition scenario (player : Player) (name : string) (duration : number)
  : M unit :=
  if isDead (data player) then
    ret tt
  else
    alt.emitClient player PLAYER_EMIT_SCENARIO [VStr name; VNum duration].

(** [function meta(player, key, value)] *)
Definition meta (player : Player) (key : string) (value : Value) : M unit :=
  alt.nextTick (EmitLater player META_SET [VStr key; value]).

(** [function message(player, message)] *)
Definition message (player : Player) (message : string) : M unit :=
  alt.emitClient player View_Events_Chat_Append [VStr message].

(** [function notification(player, message)] *)
Definition notification (player : Player) (message : string) : M unit :=
  alt.emitClient player PLAYER_EMIT_NOTIFICATION [VStr message].

(** [for (let i = 0; i < nearbyPlayers.length; i++)] of [particle],
    entered at index [i]; [fuel] bounds the remaining iterations. *)
Fixpoint particle_for (fuel i : nat) (nearbyPlayers : list Player)
    (particle : loc) : M unit :=
  match fuel with
  | 0 => ret tt
  | S fuel' =>
      if bool_decide (i < length nearbyPlayers) then
        match nearbyPlayers !! i with
        | Some player =>
            alt.emitClient player PLAY_PARTICLE_EFFECT [VRef particle] ;;
            particle_for fuel' (S i) nearbyPlayers particle
        | None => ret tt
        end
      else ret tt
  end.

(** [function particle(player, particle, emitToNearbyPlayers = false)] *)
Definition particle (player : Player) (particle : loc)
    (emitToNearbyPlayers : option bool) : M unit :=
  let emitToNearbyPlayers := default false emitToNearbyPlayers in
  if negb emitToNearbyPlayers then
    alt.emitClient player PLAY_PARTICLE_EFFECT [VRef particle]
  else
    let nearbyPlayers := getClosestPlayers player 10%float in
    particle_for (length nearbyPlayers) 0 nearbyPlayers particle.

(** [function createProgressBar(player, progressbar)] *)
Definition createProgressBar (player : Player) (progressbar : loc)
  : M Data :=
  uid <- get_prop progressbar "uid" ;;
  (if negb (truthy uid) then
     content <- read_object progressbar ;;
     generated <- sha256Random (JSON_stringify content) ;;
     set_prop progressbar "uid" (DStr generated)
   else ret tt) ;;
  alt.emitClient player PROGRESSBAR_CREATE [VRef progressbar] ;;
  get_prop progressbar "uid".

(** [function removeProgressBar(player, uid)] *)
Definition removeProgressBar (player : Player) (uid : string) : M unit :=
  alt.emitClient player PROGRESSBAR_REMOVE [VStr uid].

(** [function sound2D(p, audioName, volume = 0.35)] *)
Definition sound2D (p : Player) (audioName : string)
    (volume : option number) : M unit :=
  let volume := default 0.35%float volume in
  alt.emitClient p PLAYER_EMIT_SOUND_2D [VStr audioName; VNum volume].

(** [function sound3D(p, audioName, target)] *)
Definition sound3D (p : Player) (audioName : string) (target : loc)
  : M unit :=
  alt.emitClient p PLAYER_EMIT_SOUND_3D [VRef target; VStr audioName].

(** [function soundFrontend(p, audioName, ref)] *)
Definition soundFrontend (p : Player) (audioName ref : string) : M unit :=
  alt.emitClient p PLAYER_EMIT_FRONTEND_SOUND [VStr audioName; VStr ref].

(** [function taskTimeline(player, tasks)] *)
Definition taskTimeline (player : Player) (tasks : loc) : M unit :=
  alt.emitClient player PLAYER_EMIT_TASK_TIMELINE [VRef tasks].

(** [function inputMenu(player, inputMenu)] *)
Definition inputMenu (player : Player) (inputMenu : loc) : M unit :=
  alt.emitClient player View_Events_Input_Menu_SetMenu [VRef inputMenu].

(** [function createSpinner(player, spinner)] *)
Definition createSpinner (player : Player) (spinner : loc) : M unit :=
  alt.emitClient player PLAYER_EMIT_SPINNER [VRef spinner].

(** [function clearSpinner(player)] *)
Definition clearSpinner (player : Player) : M unit :=
  alt.emitClient player PLAYER_EMIT_SPINNER_CLEAR [].

(** [function createErrorScreen(player, screen)] *)
Definition createErrorScreen (player : Player) (screen : loc) : M unit :=
  alt.emitClient player PLAYER_EMIT_ERROR_SCREEN [VRef screen].

(** [function clearErrorScreen(player)] *)
Definition clearErrorScreen (player : Player) : M unit :=
  alt.emitClient player PLAYER_EMIT_ERROR_SCREEN_CLEAR [].

End Emit.

(** ** The default export *)

(** [export default { animation, scenario, ... }]: one constructor per
    exported function, holding the arguments that follow the player. *)
Inductive Call :=
  | Animation (dictionary name : string) (flags : ANIMATION_FLAGS)
              (duration : option number)
  | Scenario (name : string) (duration : number)
  | CreateProgressBar (progressbar : loc)
  | CreateSpinner (spinner : loc)
  | ClearSpinner
  | CreateErrorScreen (screen : loc)
  | ClearErrorScreen
  | InputMenu (inputMenu : loc)
  | Meta (key : string) (value : Value)
  | Message (message : string)
  | Notification (message : string)
  | Particle (particle : loc) (emitToNearbyPlayers : option bool)
  | RemoveProgressBar (uid : string)
  | Sound2D (audioName : string) (volume : option number)
  | Sound3D (audioName : string) (target : loc)
  | SoundFrontend (audioName ref : string)
  | TaskTimeline (tasks : loc).

(** A function declared [void] returns [undefined]. *)
Definition void (m : M unit) : M Data := m ;; ret DUndefined.

(** Calling a member of the exported object on a player. *)
Definition invoke `{Utility} `{Digest} (player : Player) (c : Call) : M Data :=
  match c with
  | Animation dictionary name flags duration =>
      void (animation player dictionary name flags duration)
  | Scenario name duration => void (scenario player name duration)
  | CreateProgressBar progressbar => createProgressBar player progressbar
  | CreateSpinner spinner => void (createSpinner player spinner)
  | ClearSpinner => void (clearSpinner player)
  | CreateErrorScreen screen => void (createErrorScreen player screen)
  | ClearErrorScreen => void (clearErrorScreen player)
  | InputMenu menu => void (inputMenu player menu)
  | Meta key value => void (meta player key value)
  | Message text => void (message player text)
  | Notification text => void (notification player text)
  | Particle effect emitToNearbyPlayers =>
      void (particle player effect emitToNearbyPlayers)
  | RemoveProgressBar uid => void (removeProgressBar player uid)
  | Sound2D audioName volume => void (sound2D player audioName volume)
  | Sound3D audioName target => void (sound3D player audioName target)
  | SoundFrontend audioName ref => void (soundFrontend player audioName ref)
  | TaskTimeline tasks => void (taskTimeline player tasks)
  end.

(** Synchronous work within one tick: a sequence of calls, in order. *)
Definition run_calls `{Utility} `{Digest} (work : list (Player * Call))
    (h : Host) : Host :=
  foldl (fun h' pc => exec (invoke pc.1 pc.2) h') h work.

(** The two functions that test [player.data.isDead]. *)
Definition checks_dead (c : Call) : bool :=
  match c with
  | Animation _ _ _ _ | Scenario _ _ => true
  | _ => false
  end.

Definition is_createProgressBar (c : Call) : bool :=
  match c with
  | CreateProgressBar _ => true
  | _ => false
  end.

(** How many sends a call makes before it returns. *)
Definition sends_during `{Utility} (player : Player) (c : Call) : nat :=
  match c with
  | Animation _ _ _ _ | Scenario _ _ => if isDead (data player) then 0 else 1
  | Meta _ _ => 0
  | Particle _ (Some true) => length (getClosestPlayers player 10%float)
  | _ => 1
  end.

(** The send a deferred closure makes when it runs in tick [t] against the
    object store [st]. *)
Definition deferred_send (t : nat) (st : gmap loc Obj) (cb : Callback)
    : Send :=
  match cb with
  | EmitLater player ev args =>
      mkSend (pid player) ev (serialize st <$> args) t
  end.

(** [progressbar.uid] is set to something truthy. *)
Definition has_uid (h : Host) (progressbar : loc) : bool :=
  truthy (prop (store h !!! progressbar) "uid").

(** The identifier generated for the object [progressbar] as it stands in
    host [h]: the digest of its printed content and the next random draw. *)
Definition generated_uid `{Digest} (h : Host) (progressbar : loc) : string :=
  sha256 (JSON_stringify (DObj (store h !!! progressbar))
          +:+ random_text (draws h)).

(** The send a particle call makes to one addressee. *)
Definition particle_send (h : Host) (effect : loc) (addressee : Player)
    : Send :=
  mkSend (pid addressee) PLAY_PARTICLE_EFFECT [DObj (store h !!! effect)]
         (tick h).

(** ** A small world to run the functions in *)

Module Demo.

Definition alice : Player := {| pid := 1; data := {| isDead := false |} |}.
Definition bob : Player := {| pid := 2; data := {| isDead := true |} |}.
Definition bob_alive : Player :=
  {| pid := 2; data := {| isDead := false |} |}.

(** A query that resolves both players. *)
Definition utility : Utility :=
  {| getClosestPlayers := fun _ _ => [alice; bob] |}.

(** A printer that only tells objects from other data, an injective
    stand-in for the digest, and a random source. *)
Definition digest : Digest :=
  {| JSON_stringify := fun d => match d with DObj _ => "{}" | _ => "null" end;
     sha256 := fun text => "h:" +:+ text;
     random_text := fun i => match i with 0 => "0.61" | _ => "0.07" end |}.

(** Object 7 and object 8: two progress bars with the same content and no
    identifier. Object 9: a progress bar that has one. Object 3: a
    particle descriptor. *)
Definition bar : Obj :=
  {[ "text" := DStr "Loading"; "milliseconds" := DNum 5000%float ]}.

Definition host : Host :=
  mkHost 4 [] [] []
         {[ 7 := bar; 8 := bar; 9 := <["uid" := DStr "abc"]> bar;
            3 := {[ "dict" := DStr "core"; "name" := DStr "ent_dst_rocks" ]} ]}
         0.

End Demo.

(** ** Batches and traces *)

(** The line a call logs: only [animation] on a dead player logs one. *)
Definition warning_lines (pc : Player * Call) : list string :=
  match pc.2 with
  | Animation dictionary name _ _ =>
      if isDead (data pc.1) then
        ["[Athena] Cannot play " +:+ dictionary +:+ "@" +:+ name
         +:+ " while player is dead."]
      else []
  | _ => []
  end.

(** The closure a call defers: only [meta] defers one. *)
Definition deferred_by (pc : Player * Call) : list Callback :=
  match pc.2 with
  | Meta key value => [EmitLater pc.1 META_SET [VStr key; value]]
  | _ => []
  end.

(** The handles a call sends to before it returns. *)
Definition addressees `{Utility} (player : Player) (c : Call) : list nat :=
  match c with
  | Particle _ (Some true) => pid <$> getClosestPlayers player 10%float
  | _ => replicate (sends_during player c) (pid player)
  end.

(** The number of positional arguments each event is sent with. *)
Definition arity (ev : EventName) : nat :=
  match ev with
  | PLAYER_EMIT_ANIMATION => 4
  | PLAYER_EMIT_SCENARIO => 2
  | META_SET => 2
  | View_Events_Chat_Append => 1
  | PLAYER_EMIT_NOTIFICATION => 1
  | PLAY_PARTICLE_EFFECT => 1
  | PROGRESSBAR_CREATE => 1
  | PROGRESSBAR_REMOVE => 1
  | PLAYER_EMIT_SOUND_2D => 2
  | PLAYER_EMIT_SOUND_3D => 2
  | PLAYER_EMIT_FRONTEND_SOUND => 2
  | PLAYER_EMIT_TASK_TIMELINE => 1
  | View_Events_Input_Menu_SetMenu => 1
  | PLAYER_EMIT_SPINNER => 1
  | PLAYER_EMIT_SPINNER_CLEAR => 0
  | PLAYER_EMIT_ERROR_SCREEN => 1
  | PLAYER_EMIT_ERROR_SCREEN_CLEAR => 0
  end.

(** A send, or a deferred send, that carries as many arguments as its event
    takes. *)
Definition send_fits (s : Send) : Prop :=
  length (payload s) = arity (event s).

Definition callback_fits (cb : Callback) : Prop :=
  match cb with
  | EmitLater _ ev args => length args = arity ev
  end.

(** What happens on a host over time: calls of exported functions, and
    turns of the tick loop between them. *)
Inductive Step :=
  | Invoke (player : Player) (c : Call)
  | NextTick.

Definition step `{Utility} `{Digest} (s : Step) (h : Host) : Host :=
  match s with
  | Invoke player c => exec (invoke player c) h
  | NextTick => hostTick h
  end.

Definition run `{Utility} `{Digest} (trace : list Step) (h : Host) : Host :=
  foldl (fun h' s => step s h') h trace.

(** A query that resolves nobody. *)
Definition empty_utility : Utility :=
  {| getClosestPlayers := fun _ _ => [] |}.

(** ** Host primitives: what each one changes *)

Lemma host_eta (h : Host) :
  mkHost (tick h) (sent h) (warnings h) (deferred h) (store h) (draws h) = h.
Proof. by destruct h. Qed.

Lemma exec_bind {A B} (m : M A) (k : A -> M B) (h : Host) :
  exec (x <- m ;; k x) h = exec (k (result m h)) (exec m h).
Proof. reflexivity. Qed.

Lemma exec_void (m : M unit) (h : Host) : exec (void m) h = exec m h.
Proof. reflexivity. Qed.

Lemma exec_emitClient (player : Player) (ev : EventName) (args : list Value)
    (h : Host) :
  exec (alt.emitClient player ev args) h =
  mkHost (tick h)
         (sent h ++ [mkSend (pid player) ev (serialize (store h) <$> args)
                            (tick h)])
         (warnings h) (deferred h) (store h) (draws h).
Proof. reflexivity. Qed.

(** ** The particle loop *)

(** Entered at index [i] with enough fuel for the remaining indices, the
    loop sends once to each of the players from [i] on, in order, and
    changes nothing else. *)
Lemma particle_for_spec (fuel i : nat) (nearby : list Player) (effect : loc)
    (h : Host) :
  length nearby - i <= fuel ->
  exec (particle_for fuel i nearby effect) h =
  mkHost (tick h) (sent h ++ (particle_send h effect <$> drop i nearby))
         (warnings h) (deferred h) (store h) (draws h).
Proof.
  revert i h. induction fuel as [|fuel IH]; intros i h Hfuel.
  - rewrite drop_ge by lia. cbn. rewrite app_nil_r. by rewrite host_eta.
  - cbn [particle_for]. case_bool_decide as Hi.
    + destruct (lookup_lt_is_Some_2 nearby i Hi) as [q Hq].
      rewrite Hq, exec_bind, IH by lia.
      rewrite (drop_S _ _ _ Hq), exec_emitClient. cbn.
      by rewrite <- app_assoc.
    + rewrite drop_ge by lia. cbn. rewrite app_nil_r. by rewrite host_eta.
Qed.

(** The loop addresses players by handle. *)
Lemma particle_send_same_handles (h : Host) (effect : loc)
    (l l' : list Player) :
  pid <$> l = pid <$> l' ->
  particle_send h effect <$> l = particle_send h effect <$> l'.
Proof.
  revert l'. induction l as [|q l IH]; intros [|q' l'] Heq; try done.
  cbn in *. injection Heq as Hq Hl. unfold particle_send at 1 3.
  rewrite Hq. f_equal. by apply IH.
Qed.

(** ** Animation and scenario *)

(** C1. For a player whose data marks them dead, [animation] sends nothing,
    defers nothing and logs exactly one warning, whatever the dictionary,
    name, flags and duration; [scenario] leaves the host as it was (no
    send, no log), whatever the name and duration. *)
Theorem dead_player_animation_warns_scenario_silent (h : Host)
    (player : Player) :
  isDead (data player) = true ->
  (forall (dictionary name : string) (flags : ANIMATION_FLAGS)
          (duration : option number),
     let h' := exec (animation player dictionary name flags duration) h in
     sent h' = sent h /\ deferred h' = deferred h /\
     warnings h' =
       warnings h ++ ["[Athena] Cannot play " +:+ dictionary +:+ "@" +:+ name
                      +:+ " while player is dead."]) /\
  (forall (name : string) (duration : number),
     exec (scenario player name duration) h = h).
Proof.
  intros Hdead. split.
  - intros dictionary name flags duration. unfold animation.
    rewrite Hdead. done.
  - intros name duration. unfold scenario. by rewrite Hdead.
Qed.

Lemma dead_player_animation_warns_scenario_silent_witness :
  isDead (data Demo.bob) = true /\
  length (warnings (exec (animation Demo.bob "amb@world" "idle_a" 1%float None)
                         Demo.host)) = 1 /\
  sent (exec (animation Demo.bob "amb@world" "idle_a" 1%float None) Demo.host)
    = [] /\
  exec (scenario Demo.bob "WORLD_HUMAN_SMOKING" 5000%float) Demo.host
    = Demo.host.
Proof.
  pose proof (dead_player_animation_warns_scenario_silent
                Demo.host Demo.bob eq_refl) as [Hanim Hscen].
  destruct (Hanim "amb@world" "idle_a" 1%float None) as (Hs & _ & Hw).
  split; [reflexivity|]. split; [by rewrite Hw|]. split; [by rewrite Hs|].
  apply Hscen.
Defined.

(** C8. On a player who is not dead, [animation] makes one send of
    [PLAYER_EMIT_ANIMATION] carrying the dictionary, name, flags and
    duration as given, in that order; a duration left out is sent as [-1]
    (play once). Nothing is logged. *)
Theorem animation_forwards_arguments (h : Host) (player : Player)
    (dictionary name : string) (flags : ANIMATION_FLAGS) :
  isDead (data player) = false ->
  (forall duration : number,
     exec (animation player dictionary name flags (Some duration)) h =
     mkHost (tick h)
            (sent h ++ [mkSend (pid player) PLAYER_EMIT_ANIMATION
                          [DStr dictionary; DStr name; DNum flags;
                           DNum duration] (tick h)])
            (warnings h) (deferred h) (store h) (draws h)) /\
  exec (animation player dictionary name flags None) h =
  mkHost (tick h)
         (sent h ++ [mkSend (pid player) PLAYER_EMIT_ANIMATION
                       [DStr dictionary; DStr name; DNum flags;
                        DNum (-1)%float] (tick h)])
         (warnings h) (deferred h) (store h) (draws h).
Proof.
  intros Halive. unfold animation. rewrite Halive. split; reflexivity.
Qed.

Lemma animation_forwards_arguments_witness :
  isDead (data Demo.alice) = false /\
  sent (exec (animation Demo.alice "amb@world" "idle_a" 1%float None)
             Demo.host) =
  [mkSend 1 PLAYER_EMIT_ANIMATION
          [DStr "amb@world"; DStr "idle_a"; DNum 1%float; DNum (-1)%float] 4].
Proof.
  split; [reflexivity|].
  destruct (animation_forwards_arguments Demo.host Demo.alice
              "amb@world" "idle_a" 1%float eq_refl) as [_ Hnone].
  by rewrite Hnone.
Defined.

(** ** Sound *)

(** C7. [sound2D] called without a volume sends the audio name with the
    volume [0.35]; called with a volume it sends that volume as given. *)
Theorem sound2D_default_volume (h : Host) (p : Player) (audioName : string) :
  sent (exec (sound2D p audioName None) h) =
    sent h ++ [mkSend (pid p) PLAYER_EMIT_SOUND_2D
                 [DStr audioName; DNum 0.35%float] (tick h)] /\
  (forall volume : number,
     sent (exec (sound2D p audioName (Some volume)) h) =
       sent h ++ [mkSend (pid p) PLAYER_EMIT_SOUND_2D
                    [DStr audioName; DNum volume] (tick h)]).
Proof. split; reflexivity. Qed.

(** ** Particle effects *)

Section Particle.
Context `{Utility}.

(** C5. With the broadcast flag left out or false, [particle] makes
    exactly one send, to the calling player, carrying the particle
    descriptor; the spatial query plays no part. *)
Theorem particle_without_broadcast_sends_once (h : Host) (player : Player)
    (effect : loc) :
  sent (exec (particle player effect None) h) =
    sent h ++ [particle_send h effect player] /\
  sent (exec (particle player effect (Some false)) h) =
    sent h ++ [particle_send h effect player].
Proof. split; reflexivity. Qed.

(** C4. With the broadcast flag set, [particle] sends once to each player
    the 10-unit query around the caller resolves, in the order resolved,
    each send carrying the same particle descriptor: [N] players make [N]
    sends. *)
Theorem particle_broadcast_sends_to_each_nearby (h : Host)
    (player : Player) (effect : loc) :
  let nearby := getClosestPlayers player 10%float in
  let h' := exec (particle player effect (Some true)) h in
  let added := particle_send h effect <$> nearby in
  sent h' = sent h ++ added /\
  length (sent h') = length (sent h) + length nearby /\
  to <$> added = pid <$> nearby /\
  Forall (fun s => event s = PLAY_PARTICLE_EFFECT /\
                   payload s = [DObj (store h !!! effect)]) added.
Proof.
  intros nearby h' added.
  assert (sent h' = sent h ++ added) as Hsent.
  { subst h'.
    change (particle player effect (Some true))
      with (particle_for (length nearby) 0 nearby effect).
    rewrite particle_for_spec by lia. by rewrite drop_0. }
  split; [done|]. split; [|split].
  - subst added. by rewrite Hsent, length_app, length_fmap.
  - subst added. rewrite <- list_fmap_compose. reflexivity.
  - subst added. apply Forall_fmap, Forall_true. done.
Qed.

End Particle.

(** ** Progress bars *)

Lemma prop_insert_eq (o : Obj) (key : string) (v : Data) :
  prop (<[key := v]> o) key = v.
Proof. unfold prop. by rewrite lookup_insert_eq. Qed.

Section ProgressBar.
Context `{Digest}.

(** With an identifier on the payload, the call is one send and the
    identifier comes back. *)
Lemma createProgressBar_with_uid (h : Host) (player : Player) (bar : loc) :
  has_uid h bar = true ->
  createProgressBar player bar h =
  (prop (store h !!! bar) "uid",
   mkHost (tick h)
          (sent h ++ [mkSend (pid player) PROGRESSBAR_CREATE
                        [DObj (store h !!! bar)] (tick h)])
          (warnings h) (deferred h) (store h) (draws h)).
Proof.
  unfold has_uid. intros Huid.
  unfold createProgressBar, bind, get_prop. cbn. rewrite Huid. reflexivity.
Qed.

(** Without one, the identifier is generated from the content and one
    random draw, written onto the object, sent with it, and returned. *)
Lemma createProgressBar_without_uid (h : Host) (player : Player)
    (bar : loc) :
  has_uid h bar = false ->
  createProgressBar player bar h =
  (DStr (generated_uid h bar),
   mkHost (tick h)
          (sent h ++ [mkSend (pid player) PROGRESSBAR_CREATE
                        [DObj (<["uid" := DStr (generated_uid h bar)]>
                                 (store h !!! bar))] (tick h)])
          (warnings h) (deferred h)
          (<[bar := <["uid" := DStr (generated_uid h bar)]>
                      (store h !!! bar)]> (store h))
          (S (draws h))).
Proof.
  unfold has_uid. intros Huid.
  unfold createProgressBar, bind, get_prop. cbn. rewrite Huid. cbn.
  rewrite lookup_total_insert_eq, prop_insert_eq. reflexivity.
Qed.

(** C2. When the payload already carries an identifier, [createProgressBar]
    leaves the payload (and every other object) as it was, sends the
    payload with that identifier, draws no randomness, and returns that
    same identifier. *)
Theorem createProgressBar_preserves_uid (h : Host) (player : Player)
    (bar : loc) :
  has_uid h bar = true ->
  let uid := prop (store h !!! bar) "uid" in
  let h' := exec (createProgressBar player bar) h in
  result (createProgressBar player bar) h = uid /\
  store h' = store h /\
  prop (store h' !!! bar) "uid" = uid /\
  sent h' = sent h ++ [mkSend (pid player) PROGRESSBAR_CREATE
                         [DObj (store h !!! bar)] (tick h)] /\
  draws h' = draws h.
Proof.
  intros Huid uid h'. subst h'. unfold result, exec.
  rewrite (createProgressBar_with_uid h player bar Huid). done.
Qed.

(** X11. An empty string is no identifier: [!progressbar.uid] holds for it.
    The call overwrites it with a generated identifier, sends the payload
    with that identifier and returns it; as long as the digest is not the
    empty string, what comes back is not the empty string and the payload
    carries an identifier afterwards. *)
Theorem createProgressBar_empty_uid_regenerated (h : Host) (player : Player)
    (bar : loc) :
  prop (store h !!! bar) "uid" = DStr "" ->
  generated_uid h bar <> "" ->
  let uid := result (createProgressBar player bar) h in
  let h' := exec (createProgressBar player bar) h in
  uid = DStr (generated_uid h bar) /\
  uid <> DStr "" /\
  prop (store h' !!! bar) "uid" = uid /\
  has_uid h' bar = true /\
  sent h' = sent h ++ [mkSend (pid player) PROGRESSBAR_CREATE
                         [DObj (store h' !!! bar)] (tick h)].
Proof.
  intros Hempty Hne uid h'. subst uid h'. unfold result, exec.
  assert (has_uid h bar = false) as Hno.
  { unfold has_uid. by rewrite Hempty. }
  rewrite (createProgressBar_without_uid h player bar Hno).
  cbn [fst snd store sent]. unfold has_uid. cbn [store].
  rewrite lookup_total_insert_eq, prop_insert_eq.
  repeat split; [congruence|].
  cbn. by apply negb_true_iff, String.eqb_neq.
Qed.

(** Once the generated identifier is on the object, a second call with the
    same object returns it again. *)
Lemma createProgressBar_twice_same_object (h : Host) (p1 p2 : Player)
    (bar : loc) :
  has_uid h bar = false ->
  generated_uid h bar <> "" ->
  let r1 := createProgressBar p1 bar h in
  let r2 := createProgressBar p2 bar r1.2 in
  r2.1 = r1.1.
Proof.
  intros Hno Hne r1 r2. subst r1 r2.
  rewrite (createProgressBar_without_uid h p1 bar Hno). cbn [fst snd].
  rewrite createProgressBar_with_uid.
  - cbn. by rewrite lookup_total_insert_eq, prop_insert_eq.
  - unfold has_uid. cbn. rewrite lookup_total_insert_eq, prop_insert_eq.
    cbn. apply negb_true_iff, String.eqb_neq. done.
Qed.

(** Two calls, one after the other, on two different payload objects with
    the same content and no identifier: the two identifiers are the digests
    of that one content followed by two successive random draws. Whether
    they differ is decided by the random source and the digest alone. *)
Lemma createProgressBar_two_objects_uids (h : Host) (p1 p2 : Player)
    (b1 b2 : loc) :
  b1 <> b2 ->
  store h !!! b1 = store h !!! b2 ->
  has_uid h b1 = false ->
  let content := JSON_stringify (DObj (store h !!! b1)) in
  let r1 := createProgressBar p1 b1 h in
  let r2 := createProgressBar p2 b2 r1.2 in
  r1.1 = DStr (sha256 (content +:+ random_text (draws h))) /\
  r2.1 = DStr (sha256 (content +:+ random_text (S (draws h)))).
Proof.
  intros Hne Hsame Hno content r1 r2. subst r1 r2 content.
  rewrite (createProgressBar_without_uid h p1 b1 Hno). cbn [fst snd].
  split; [reflexivity|].
  rewrite createProgressBar_without_uid.
  - cbn [fst]. unfold generated_uid. cbn [store draws].
    rewrite lookup_total_insert_ne by done. by rewrite <- Hsame.
  - unfold has_uid in *. cbn [store].
    rewrite lookup_total_insert_ne by done. by rewrite <- Hsame.
Qed.

End ProgressBar.

Lemma createProgressBar_preserves_uid_witness :
  has_uid Demo.host 9 = true /\
  result (@createProgressBar Demo.digest Demo.alice 9) Demo.host = DStr "abc".
Proof.
  split; [reflexivity|].
  destruct (@createProgressBar_preserves_uid Demo.digest Demo.host Demo.alice
              9 eq_refl) as [Hres _].
  rewrite Hres. reflexivity.
Defined.

(** ** Deferred callbacks and the tick loop *)

(** Running a queue of deferred closures appends their sends, in order,
    tagged with the current tick, and changes nothing else. *)
Lemma run_deferred_spec (cbs : list Callback) (h : Host) :
  foldl (fun h' cb => exec (run_callback cb) h') h cbs =
  mkHost (tick h)
         (sent h ++ (deferred_send (tick h) (store h) <$> cbs))
         (warnings h) (deferred h) (store h) (draws h).
Proof.
  revert h. induction cbs as [|cb cbs IH]; intros h.
  - cbn. by rewrite app_nil_r, host_eta.
  - cbn [foldl]. rewrite IH. destruct cb as [player ev args]. cbn.
    by rewrite <- app_assoc.
Qed.

Lemma hostTick_spec (h : Host) :
  hostTick h =
  mkHost (S (tick h))
         (sent h ++ (deferred_send (S (tick h)) (store h) <$> deferred h))
         (warnings h) [] (store h) (draws h).
Proof. unfold hostTick. by rewrite run_deferred_spec. Qed.

(** ** Every exported function at once *)

Section Frame.
Context `{Utility} `{Digest}.

Lemma exec_particle_broadcast (player : Player) (effect : loc) (h : Host) :
  exec (particle player effect (Some true)) h =
  mkHost (tick h)
         (sent h ++ (particle_send h effect
                       <$> getClosestPlayers player 10%float))
         (warnings h) (deferred h) (store h) (draws h).
Proof.
  change (particle player effect (Some true))
    with (particle_for (length (getClosestPlayers player 10%float)) 0
                       (getClosestPlayers player 10%float) effect).
  rewrite particle_for_spec by lia. by rewrite drop_0.
Qed.

(** Case analysis on the exported function called, each brought to the
    host it leaves behind. *)
Ltac invoke_cases player c h :=
  destruct c as [? ? ? ? | ? ? | bar | ? | | ? | | ? | ? ? | ? | ?
                | ? [[|]|] | ? | ? ? | ? ? | ? ? | ?];
  cbn [invoke is_createProgressBar checks_dead sends_during];
  rewrite ?exec_void, ?exec_particle_broadcast;
  [ unfold animation; destruct (isDead (data player))
  | unfold scenario; destruct (isDead (data player))
  | unfold exec; destruct (has_uid h bar) eqn:Huid;
    [ rewrite (createProgressBar_with_uid h player bar Huid)
    | rewrite (createProgressBar_without_uid h player bar Huid) ]
  | .. ].

Lemma invoke_tick (player : Player) (c : Call) (h : Host) :
  tick (exec (invoke player c) h) = tick h.
Proof. invoke_cases player c h; reflexivity. Qed.

Lemma invoke_store (player : Player) (c : Call) (h : Host) :
  is_createProgressBar c = false ->
  store (exec (invoke player c) h) = store h.
Proof. invoke_cases player c h; intros Hc; try reflexivity; discriminate. Qed.

Lemma invoke_deferred (player : Player) (c : Call) (h : Host) :
  exists queued, deferred (exec (invoke player c) h) = deferred h ++ queued.
Proof.
  invoke_cases player c h;
    first [ by exists [] ; cbn; rewrite app_nil_r
          | by eexists [_] ].
Qed.

Lemma invoke_deferred_count (player : Player) (c : Call) (h : Host) :
  length (deferred (exec (invoke player c) h)) =
  length (deferred h) + match c with Meta _ _ => 1 | _ => 0 end.
Proof.
  invoke_cases player c h; cbn; rewrite ?length_app; cbn; lia.
Qed.

Lemma invoke_sent_count (player : Player) (c : Call) (h : Host) :
  length (sent (exec (invoke player c) h)) =
  length (sent h) + sends_during player c.
Proof.
  invoke_cases player c h; cbn;
    rewrite ?length_app, ?length_fmap; cbn; lia.
Qed.

Lemma run_calls_tick (work : list (Player * Call)) (h : Host) :
  tick (run_calls work h) = tick h.
Proof.
  revert h. induction work as [|[p c] work IH]; intros h; [done|].
  cbn. unfold run_calls in IH. by rewrite IH, invoke_tick.
Qed.

Lemma run_calls_deferred (work : list (Player * Call)) (h : Host) :
  exists queued, deferred (run_calls work h) = deferred h ++ queued.
Proof.
  revert h. induction work as [|[p c] work IH]; intros h.
  - exists []. cbn. by rewrite app_nil_r.
  - cbn. unfold run_calls in IH.
    destruct (IH (exec (invoke p c) h)) as [q2 ->].
    destruct (invoke_deferred p c h) as [q1 ->].
    exists (q1 ++ q2). by rewrite app_assoc.
Qed.

End Frame.

(** ** Metadata, the dead flag, and what a call may change *)

Section Exported.
Context `{Utility} `{Digest}.

(** C6. A [meta] call sends nothing itself. Whatever other calls follow
    in the same tick, the tick counter has not moved when they are done,
    and the key/value pair goes out when the host runs its next tick: that
    send is tagged with a tick strictly greater than the one the call was
    issued in. *)
Theorem meta_send_is_deferred_to_next_tick (h : Host) (player : Player)
    (key : string) (value : Value) (work : list (Player * Call)) :
  let h1 := exec (meta player key value) h in
  let h2 := run_calls work h1 in
  sent h1 = sent h /\
  tick h2 = tick h /\
  exists before s after,
    sent (hostTick h2) = sent h2 ++ before ++ s :: after /\
    to s = pid player /\
    event s = META_SET /\
    payload s = [DStr key; serialize (store h2) value] /\
    tick h < at_tick s.
Proof.
  intros h1 h2. split; [reflexivity|].
  assert (tick h2 = tick h) as Htick.
  { subst h2. by rewrite run_calls_tick. }
  split; [done|].
  destruct (run_calls_deferred work h1) as [queued Hq]. fold h2 in Hq.
  exists (deferred_send (S (tick h2)) (store h2) <$> deferred h),
         (deferred_send (S (tick h2)) (store h2)
            (EmitLater player META_SET [VStr key; value])),
         (deferred_send (S (tick h2)) (store h2) <$> queued).
  split.
  - rewrite hostTick_spec. cbn [sent]. rewrite Hq. subst h1. cbn [deferred exec snd meta alt.nextTick].
    rewrite !fmap_app. cbn [fmap list_fmap]. by rewrite <- !app_assoc.
  - cbn. rewrite Htick. repeat split; lia.
Qed.

(** C9, as the code has it. For every exported function other than
    [animation] and [scenario], two players with the same handle, whatever
    their dead flags, get the same result, the same sends, the same
    warnings, the same object store, and the same sends on the next tick,
    provided the spatial query resolves the same handles for both. Each such
    call makes exactly one send, during the call or, for [meta], on the
    next tick; the exception is [particle] with the broadcast flag set,
    which makes one send per resolved player. *)
Theorem dead_flag_ignored_outside_animation_scenario (h : Host)
    (p p' : Player) (c : Call) :
  pid p = pid p' ->
  checks_dead c = false ->
  pid <$> getClosestPlayers p 10%float =
    pid <$> getClosestPlayers p' 10%float ->
  let h1 := exec (invoke p c) h in
  let h1' := exec (invoke p' c) h in
  result (invoke p c) h = result (invoke p' c) h /\
  sent h1 = sent h1' /\
  warnings h1 = warnings h1' /\
  store h1 = store h1' /\
  sent (hostTick h1) = sent (hostTick h1') /\
  length (sent h1) =
    length (sent h) +
    match c with
    | Meta _ _ => 0
    | Particle _ (Some true) => length (getClosestPlayers p 10%float)
    | _ => 1
    end /\
  length (sent (hostTick h1)) =
    length (sent h1) + length (deferred h) +
    match c with Meta _ _ => 1 | _ => 0 end.
Proof.
  intros Hpid Hc Hquery h1 h1'.
  assert (length (sent (hostTick h1)) =
          length (sent h1) + length (deferred h) +
          match c with Meta _ _ => 1 | _ => 0 end) as Hnext.
  { rewrite hostTick_spec. cbn [sent]. rewrite length_app, length_fmap.
    subst h1. rewrite invoke_deferred_count. lia. }
  assert (length (sent h1) =
          length (sent h) +
          match c with
          | Meta _ _ => 0
          | Particle _ (Some true) => length (getClosestPlayers p 10%float)
          | _ => 1
          end) as Hcount.
  { subst h1. rewrite invoke_sent_count.
    destruct c as [| | | | | | | | | | | ? [[|]|] | | | | |];
      try discriminate; reflexivity. }
  assert ((exists key value, c = Meta key value) \/
          invoke p c h = invoke p' c h) as [(key & value & ->)|Heq].
  { destruct c as [| | bar | | | | | | key value | | | effect [[|]|] | | | | |];
      try discriminate Hc;
      try (right; cbn [invoke]; unfold void, bind; cbn;
           unfold alt.emitClient; by rewrite Hpid).
    - right. unfold invoke, createProgressBar, bind, get_prop,
        alt.emitClient. cbn. by rewrite Hpid.
    - left. eauto.
    - right. cbn [invoke]. unfold void, bind. cbn [ret fst snd].
      pose proof (exec_particle_broadcast p effect h) as E1.
      pose proof (exec_particle_broadcast p' effect h) as E2.
      unfold exec in E1, E2. rewrite E1, E2.
      by rewrite (particle_send_same_handles h effect _ _ Hquery). }
  - subst h1 h1'. rewrite !hostTick_spec. cbn.
    rewrite !fmap_app. cbn. rewrite Hpid.
    repeat split; try lia.
    rewrite !length_app, length_fmap. cbn. lia.
  - subst h1 h1'. unfold exec, result in *. rewrite <- Heq. done.
Qed.

(** C10. [createProgressBar] is the one exported function that writes to
    an argument. On a payload without identifier, the identifier it
    returns is on the payload afterwards and in the payload as sent; every
    other property of the payload and every other object are as before.
    Any other exported function, and the deferred send of [meta], leave
    the object store as they found it. *)
Theorem createProgressBar_only_writes_uid (h : Host) (player : Player)
    (bar : loc) :
  has_uid h bar = false ->
  let uid := result (createProgressBar player bar) h in
  let h' := exec (createProgressBar player bar) h in
  uid = DStr (generated_uid h bar) /\
  prop (store h' !!! bar) "uid" = uid /\
  sent h' = sent h ++ [mkSend (pid player) PROGRESSBAR_CREATE
                         [DObj (store h' !!! bar)] (tick h)] /\
  (forall key : string,
     key <> "uid" -> (store h' !!! bar) !! key = (store h !!! bar) !! key) /\
  (forall other : loc, other <> bar -> store h' !! other = store h !! other) /\
  (forall (caller : Player) (c : Call) (h0 : Host),
     is_createProgressBar c = false ->
     store (exec (invoke caller c) h0) = store h0) /\
  (forall h0 : Host, store (hostTick h0) = store h0).
Proof.
  intros Hno uid h'. subst uid h'. unfold result, exec.
  rewrite (createProgressBar_without_uid h player bar Hno). cbn [fst snd store sent].
  rewrite lookup_total_insert_eq, prop_insert_eq.
  repeat split.
  - intros key Hkey. by rewrite lookup_insert_ne.
  - intros other Hother. by rewrite lookup_insert_ne.
  - intros caller c h0. apply invoke_store.
  - intros h0. by rewrite hostTick_spec.
Qed.

End Exported.

Lemma dead_flag_ignored_outside_animation_scenario_witness :
  pid Demo.bob = pid Demo.bob_alive /\
  sent (exec (@invoke Demo.utility Demo.digest Demo.bob
                (Notification "Welcome")) Demo.host) =
  sent (exec (@invoke Demo.utility Demo.digest Demo.bob_alive
                (Notification "Welcome")) Demo.host).
Proof.
  split; [reflexivity|].
  destruct (@dead_flag_ignored_outside_animation_scenario
              Demo.utility Demo.digest Demo.host Demo.bob Demo.bob_alive
              (Notification "Welcome") eq_refl eq_refl eq_refl)
    as (_ & Hsent & _).
  exact Hsent.
Defined.

(** C9 as stated fails on the code: [particle] is one of the functions that
    do not look at the dead flag, yet with the broadcast flag set and a
    query that resolves two players it makes two sends, not one. *)
Lemma particle_broadcast_sends_twice :
  checks_dead (Particle 3 (Some true)) = false /\
  sent Demo.host = [] /\
  to <$> sent (exec (@invoke Demo.utility Demo.digest Demo.bob
                       (Particle 3 (Some true))) Demo.host) = [1; 2].
Proof. vm_compute. done. Qed.

Lemma createProgressBar_only_writes_uid_witness :
  has_uid Demo.host 7 = false /\
  prop (store (exec (@createProgressBar Demo.digest Demo.alice 7) Demo.host)
          !!! 7) "uid" = DStr "h:{}0.61" /\
  (store (exec (@createProgressBar Demo.digest Demo.alice 7) Demo.host)
     !!! 7) !! "text" = Some (DStr "Loading").
Proof.
  split; [reflexivity|].
  destruct (@createProgressBar_only_writes_uid Demo.utility Demo.digest
              Demo.host Demo.alice 7 eq_refl)
    as (Hid & Huid & _ & Hkeys & _).
  split.
  - rewrite Huid, Hid. reflexivity.
  - rewrite (Hkeys "text") by discriminate. reflexivity.
Defined.

(** ** One call, in full *)

Section Calls.
Context `{Utility} `{Digest}.

(** Case analysis on the exported function called, each brought to the
    host it leaves behind. *)
Ltac call_cases player c h :=
  destruct c as [? ? ? ? | ? ? | bar | ? | | ? | | ? | ? ? | ? | ?
                | effect [[|]|] | ? | ? ? | ? ? | ? ? | ?];
  cbn [invoke sends_during addressees warning_lines deferred_by fst snd];
  rewrite ?exec_void, ?exec_particle_broadcast;
  [ unfold animation; destruct (isDead (data player))
  | unfold scenario; destruct (isDead (data player))
  | unfold exec; destruct (has_uid h bar) eqn:Huid;
    [ rewrite (createProgressBar_with_uid h player bar Huid)
    | rewrite (createProgressBar_without_uid h player bar Huid) ]
  | .. ].

(** The sends of one call: appended to the log, as many as [sends_during]
    says, addressed as [addressees] says, each with as many arguments as its
    event takes, each tagged with the current tick. *)
Lemma invoke_sends (player : Player) (c : Call) (h : Host) :
  exists added,
    sent (exec (invoke player c) h) = sent h ++ added /\
    length added = sends_during player c /\
    to <$> added = addressees player c /\
    Forall send_fits added /\
    Forall (fun s => at_tick s = tick h) added.
Proof.
  call_cases player c h;
    first
      [ by eexists [_]; cbn; repeat split; repeat constructor
      | by exists []; cbn; rewrite ?app_nil_r; repeat split
      | idtac ].
  exists (particle_send h effect <$> getClosestPlayers player 10%float).
  cbn. split; [done|]. rewrite length_fmap, <- list_fmap_compose.
  repeat split; try done; by apply Forall_fmap, Forall_true.
Qed.

Lemma invoke_warnings (player : Player) (c : Call) (h : Host) :
  warnings (exec (invoke player c) h) =
  warnings h ++ warning_lines (player, c).
Proof. call_cases player c h; cbn; by rewrite ?app_nil_r. Qed.

Lemma invoke_deferred_exact (player : Player) (c : Call) (h : Host) :
  deferred (exec (invoke player c) h) =
  deferred h ++ deferred_by (player, c).
Proof. call_cases player c h; cbn; by rewrite ?app_nil_r. Qed.

(** No call touches a property other than [uid]. *)
Lemma invoke_other_props (player : Player) (c : Call) (h : Host) (l : loc)
    (key : string) :
  key <> "uid" ->
  (store (exec (invoke player c) h) !!! l) !! key = (store h !!! l) !! key.
Proof.
  intros Hkey. call_cases player c h; cbn; try done.
  destruct (decide (bar = l)) as [->|Hl].
  - by rewrite lookup_total_insert_eq, lookup_insert_ne.
  - by rewrite lookup_total_insert_ne.
Qed.

(** No call touches an object whose [uid] is set. *)
Lemma invoke_uid_stable (player : Player) (c : Call) (h : Host) (l : loc) :
  has_uid h l = true ->
  store (exec (invoke player c) h) !!! l = store h !!! l.
Proof.
  intros Hl. call_cases player c h; cbn; try done.
  rewrite lookup_total_insert_ne; [done|]. intros ->. congruence.
Qed.

Lemma step_tick_store_other_props (s : Step) (h : Host) (l : loc)
    (key : string) :
  key <> "uid" ->
  (store (step s h) !!! l) !! key = (store h !!! l) !! key.
Proof.
  intros Hkey. destruct s as [player c|]; cbn.
  - by apply invoke_other_props.
  - by rewrite hostTick_spec.
Qed.

Lemma step_uid_stable (s : Step) (h : Host) (l : loc) :
  has_uid h l = true -> store (step s h) !!! l = store h !!! l.
Proof.
  intros Hl. destruct s as [player c|]; cbn.
  - by apply invoke_uid_stable.
  - by rewrite hostTick_spec.
Qed.

End Calls.

(** ** Batches of calls *)

Section Batches.
Context `{Utility} `{Digest}.

Lemma run_calls_cons (pc : Player * Call) (work : list (Player * Call))
    (h : Host) :
  run_calls (pc :: work) h = run_calls work (exec (invoke pc.1 pc.2) h).
Proof. reflexivity. Qed.


(** X1. A batch of calls only appends to the send log. The sends it adds
    number the sum of what each call sends, go to the addressees of each
    call in call order, and are all tagged with the tick the batch runs
    in. *)
Theorem batch_appends_counted_sends (work : list (Player * Call))
    (h : Host) :
  exists added,
    sent (run_calls work h) = sent h ++ added /\
    length added = sum_list ((fun pc => sends_during pc.1 pc.2) <$> work) /\
    to <$> added = flat_map (fun pc => addressees pc.1 pc.2) work /\
    Forall (fun s => at_tick s = tick h) added.
Proof.
  revert h. induction work as [|[p c] work IH]; intros h.
  - exists []. cbn. by rewrite app_nil_r.
  - rewrite run_calls_cons. cbn [fst snd].
    destruct (invoke_sends p c h) as (first & Hsent & Hlen & Hto & _ & Htick).
    destruct (IH (exec (invoke p c) h)) as (rest & Hsent' & Hlen' & Hto' & Htick').
    exists (first ++ rest). rewrite Hsent', Hsent, <- app_assoc.
    split; [done|]. cbn [fmap list_fmap sum_list flat_map fst snd].
    rewrite length_app, fmap_app, Hlen, Hlen', Hto, Hto'.
    repeat split; try done.
    apply Forall_app. split; [done|].
    by rewrite invoke_tick in Htick'.
Qed.

(** X2. The warnings of a batch are exactly the lines of its [animation]
    calls on dead players, in call order: no other function logs, and
    [animation] on a living player does not. *)
Theorem batch_warnings_are_dead_animations (work : list (Player * Call))
    (h : Host) :
  warnings (run_calls work h) = warnings h ++ flat_map warning_lines work.
Proof.
  revert h. induction work as [|[p c] work IH]; intros h.
  - cbn. by rewrite app_nil_r.
  - rewrite run_calls_cons, IH. cbn [fst snd flat_map].
    by rewrite invoke_warnings, <- app_assoc.
Qed.


End Batches.

(** ** Traces: calls and ticks *)

Section Traces.
Context `{Utility} `{Digest}.

Lemma run_cons (s : Step) (trace : list Step) (h : Host) :
  run (s :: trace) h = run trace (step s h).
Proof. reflexivity. Qed.

(** An object whose [uid] is set stays as it is, and so stays set. *)
Lemma run_uid_stable (trace : list Step) (h : Host) (l : loc) :
  has_uid h l = true ->
  store (run trace h) !!! l = store h !!! l.
Proof.
  revert h. induction trace as [|s trace IH]; intros h Hl; [done|].
  rewrite run_cons.
  pose proof (step_uid_stable s h l Hl) as Hstep.
  rewrite IH; [done|]. unfold has_uid in *. by rewrite Hstep.
Qed.

Lemma deferred_send_fits (t : nat) (st : gmap loc Obj) (cb : Callback) :
  callback_fits cb -> send_fits (deferred_send t st cb).
Proof.
  destruct cb as [player ev args]. unfold send_fits. cbn.
  by rewrite length_fmap.
Qed.

Lemma step_fits (s : Step) (h : Host) :
  Forall send_fits (sent h) -> Forall callback_fits (deferred h) ->
  Forall send_fits (sent (step s h)) /\
  Forall callback_fits (deferred (step s h)).
Proof.
  intros Hsent Hqueue. destruct s as [player c|]; cbn [step].
  - destruct (invoke_sends player c h) as (added & -> & _ & _ & Hfits & _).
    rewrite invoke_deferred_exact. split; apply Forall_app; split; try done.
    destruct c; cbn; by repeat constructor.
  - rewrite hostTick_spec. cbn. split; [|constructor].
    apply Forall_app. split; [done|]. apply Forall_fmap.
    eapply Forall_impl; [exact Hqueue|]. intros cb. apply deferred_send_fits.
Qed.

(** X4. Over any sequence of calls and ticks, no property other than [uid]
    of any object changes: payload objects handed to these functions keep
    every other field. *)
Theorem trace_keeps_properties_other_than_uid (trace : list Step)
    (h : Host) (l : loc) (key : string) :
  key <> "uid" ->
  (store (run trace h) !!! l) !! key = (store h !!! l) !! key.
Proof.
  intros Hkey. revert h. induction trace as [|s trace IH]; intros h; [done|].
  rewrite run_cons, IH. by apply step_tick_store_other_props.
Qed.

(** X5. An object that carries an identifier is never written to again:
    over any sequence of calls and ticks it stays exactly as it is. *)
Theorem trace_keeps_object_with_uid (trace : list Step) (h : Host)
    (l : loc) :
  has_uid h l = true ->
  store (run trace h) !!! l = store h !!! l /\
  has_uid (run trace h) l = true.
Proof.
  intros Hl. pose proof (run_uid_stable trace h l Hl) as Hsame.
  split; [done|]. unfold has_uid in *. by rewrite Hsame.
Qed.

(** X6. Every event goes out with the number of arguments its function
    gives it: if the sends logged so far and the closures queued so far fit
    their events, so does every send logged after any sequence of calls and
    ticks, the deferred ones included. *)
Theorem trace_sends_fit_their_events (trace : list Step) (h : Host) :
  Forall send_fits (sent h) ->
  Forall callback_fits (deferred h) ->
  Forall send_fits (sent (run trace h)).
Proof.
  revert h. induction trace as [|s trace IH]; intros h Hsent Hqueue; [done|].
  rewrite run_cons. destruct (step_fits s h Hsent Hqueue) as [Hs Hq].
  by apply IH.
Qed.

(** X8. The identifier a first [createProgressBar] call generates is the
    one every later call on the same payload object returns, whatever calls
    and ticks lie in between, as long as the digest is not the empty
    string. *)
Theorem createProgressBar_uid_returned_ever_after (h : Host)
    (p1 p2 : Player) (bar : loc) (trace : list Step) :
  has_uid h bar = false ->
  generated_uid h bar <> "" ->
  let h1 := exec (createProgressBar p1 bar) h in
  result (createProgressBar p2 bar) (run trace h1) =
    result (createProgressBar p1 bar) h /\
  draws (exec (createProgressBar p2 bar) (run trace h1)) =
    draws (run trace h1).
Proof.
  intros Hno Hne h1.
  assert (store h1 !!! bar =
          <["uid" := DStr (generated_uid h bar)]> (store h !!! bar)) as Hbar.
  { subst h1. unfold exec.
    rewrite (createProgressBar_without_uid h p1 bar Hno). cbn.
    by rewrite lookup_total_insert_eq. }
  assert (has_uid h1 bar = true) as Hset.
  { unfold has_uid. rewrite Hbar, prop_insert_eq. cbn.
    by apply negb_true_iff, String.eqb_neq. }
  pose proof (run_uid_stable trace h1 bar Hset) as Hsame.
  assert (has_uid (run trace h1) bar = true) as Hset'.
  { unfold has_uid in *. by rewrite Hsame. }
  unfold result, exec.
  rewrite (createProgressBar_with_uid _ p2 bar Hset').
  rewrite (createProgressBar_without_uid h p1 bar Hno). cbn [fst snd draws].
  by rewrite Hsame, Hbar, prop_insert_eq.
Qed.

End Traces.

(** ** How the functions compose *)

Section Composition.
Context `{Utility} `{Digest}.

(** X7. The identifier [createProgressBar] returns is the one the client
    was sent: handing it to [removeProgressBar] makes the removal carry the
    same identifier as the [uid] of the created payload, which is also the
    [uid] left on the caller's object. *)
Theorem createProgressBar_then_removeProgressBar (h : Host)
    (player : Player) (bar : loc) (uid : string) :
  result (createProgressBar player bar) h = DStr uid ->
  let h1 := exec (createProgressBar player bar) h in
  let h2 := exec (removeProgressBar player uid) h1 in
  sent h2 =
    sent h ++ [mkSend (pid player) PROGRESSBAR_CREATE
                 [DObj (store h2 !!! bar)] (tick h);
               mkSend (pid player) PROGRESSBAR_REMOVE [DStr uid] (tick h)] /\
  prop (store h2 !!! bar) "uid" = DStr uid.
Proof.
  unfold result, exec. destruct (has_uid h bar) eqn:Huid.
  - rewrite (createProgressBar_with_uid h player bar Huid). cbn.
    intros Hres. by rewrite <- app_assoc.
  - rewrite (createProgressBar_without_uid h player bar Huid). cbn.
    intros Hres. rewrite lookup_total_insert_eq, prop_insert_eq.
    by rewrite <- app_assoc.
Qed.

(** X9. [meta] hands its value to the transport only when the tick runs: a
    payload object given to [meta] and then, in the same tick, to
    [createProgressBar] reaches the client under [META_SET] with the
    generated [uid] on it, although it had none when [meta] was called. *)
Theorem meta_sends_object_as_it_is_at_the_tick (h : Host) (p p' : Player)
    (key : string) (bar : loc) :
  has_uid h bar = false ->
  let h2 := run_calls [(p, Meta key (VRef bar));
                       (p', CreateProgressBar bar)] h in
  exists o,
    last (sent (hostTick h2)) =
      Some (mkSend (pid p) META_SET [DStr key; DObj o] (S (tick h))) /\
    prop o "uid" = DStr (generated_uid h bar).
Proof.
  intros Hno h2.
  exists (<["uid" := DStr (generated_uid h bar)]> (store h !!! bar)).
  split; [|apply prop_insert_eq].
  assert (h2 =
          mkHost (tick h)
                 (sent h ++ [mkSend (pid p') PROGRESSBAR_CREATE
                               [DObj (<["uid" := DStr (generated_uid h bar)]>
                                        (store h !!! bar))] (tick h)])
                 (warnings h)
                 (deferred h ++ [EmitLater p META_SET [VStr key; VRef bar]])
                 (<[bar := <["uid" := DStr (generated_uid h bar)]>
                             (store h !!! bar)]> (store h))
                 (S (draws h))) as ->.
  { subst h2. unfold run_calls. cbn [foldl fst snd invoke].
    rewrite exec_void. unfold exec at 1.
    assert (has_uid (exec (meta p key (VRef bar)) h) bar = false) as Hno'
      by exact Hno.
    rewrite (createProgressBar_without_uid _ p' bar Hno'). reflexivity. }
  rewrite hostTick_spec. cbn [sent deferred store tick].
  rewrite fmap_app, !app_assoc. cbn [fmap list_fmap deferred_send serialize].
  by rewrite last_snoc, lookup_total_insert_eq.
Qed.

(** X10. With the broadcast flag set, [particle] leaves it to the spatial
    query who is addressed: when the query resolves nobody, nothing is sent,
    not even to the calling player, and the host is as it was. *)
Theorem particle_broadcast_to_nobody (h : Host) (player : Player)
    (effect : loc) :
  getClosestPlayers player 10%float = [] ->
  exec (particle player effect (Some true)) h = h.
Proof.
  intros Hnone. rewrite exec_particle_broadcast, Hnone. cbn.
  by rewrite app_nil_r, host_eta.
Qed.

End Composition.

(** ** The theorems above, run on the small world *)

Lemma trace_keeps_properties_other_than_uid_witness :
  (store (@run Demo.utility Demo.digest
            [Invoke Demo.alice (CreateProgressBar 7); NextTick] Demo.host)
     !!! 7) !! "text" = Some (DStr "Loading").
Proof.
  rewrite (@trace_keeps_properties_other_than_uid Demo.utility Demo.digest
             [Invoke Demo.alice (CreateProgressBar 7); NextTick]
             Demo.host 7 "text"); [reflexivity|discriminate].
Defined.

Lemma trace_keeps_object_with_uid_witness :
  has_uid Demo.host 9 = true /\
  prop (store (@run Demo.utility Demo.digest
                 [Invoke Demo.bob (CreateProgressBar 9); NextTick;
                  Invoke Demo.alice (CreateProgressBar 9)] Demo.host)
          !!! 9) "uid" = DStr "abc".
Proof.
  split; [reflexivity|].
  destruct (@trace_keeps_object_with_uid Demo.utility Demo.digest
              [Invoke Demo.bob (CreateProgressBar 9); NextTick;
               Invoke Demo.alice (CreateProgressBar 9)] Demo.host 9 eq_refl)
    as [Hsame _].
  rewrite Hsame. reflexivity.
Defined.

Lemma trace_sends_fit_their_events_witness :
  Forall send_fits
    (sent (@run Demo.utility Demo.digest
             [Invoke Demo.bob (Meta "job" (VStr "police"));
              Invoke Demo.alice (Sound3D "siren" 3);
              NextTick; Invoke Demo.alice ClearSpinner] Demo.host)).
Proof.
  apply (@trace_sends_fit_their_events Demo.utility Demo.digest);
    vm_compute; constructor.
Defined.

Lemma createProgressBar_then_removeProgressBar_witness :
  result (@createProgressBar Demo.digest Demo.alice 7) Demo.host =
    DStr "h:{}0.61" /\
  event <$> sent (exec (removeProgressBar Demo.alice "h:{}0.61")
                    (exec (@createProgressBar Demo.digest Demo.alice 7)
                          Demo.host)) =
    [PROGRESSBAR_CREATE; PROGRESSBAR_REMOVE].
Proof.
  split; [reflexivity|].
  destruct (@createProgressBar_then_removeProgressBar Demo.digest Demo.host
              Demo.alice 7 "h:{}0.61" eq_refl) as [Hsent _].
  rewrite Hsent. reflexivity.
Defined.

Lemma createProgressBar_uid_returned_ever_after_witness :
  has_uid Demo.host 7 = false /\
  result (@createProgressBar Demo.digest Demo.bob 7)
    (@run Demo.utility Demo.digest
       [Invoke Demo.bob (Notification "Loading"); NextTick]
       (exec (@createProgressBar Demo.digest Demo.alice 7) Demo.host)) =
  DStr "h:{}0.61".
Proof.
  split; [reflexivity|].
  destruct (@createProgressBar_uid_returned_ever_after
              Demo.utility Demo.digest Demo.host Demo.alice Demo.bob 7
              [Invoke Demo.bob (Notification "Loading"); NextTick])
    as [Hres _].
  - reflexivity.
  - vm_compute. discriminate.
  - rewrite Hres. reflexivity.
Defined.

Lemma meta_sends_object_as_it_is_at_the_tick_witness :
  has_uid Demo.host 7 = false /\
  exists o,
    last (sent (hostTick
                  (@run_calls Demo.utility Demo.digest
                     [(Demo.bob, Meta "bar" (VRef 7));
                      (Demo.alice, CreateProgressBar 7)] Demo.host))) =
      Some (mkSend 2 META_SET [DStr "bar"; DObj o] 5) /\
    prop o "uid" = DStr "h:{}0.61".
Proof.
  split; [reflexivity|].
  destruct (@meta_sends_object_as_it_is_at_the_tick Demo.utility Demo.digest
              Demo.host Demo.bob Demo.alice "bar" 7 eq_refl)
    as (o & Hlast & Huid).
  exists o. split; [exact Hlast|]. rewrite Huid. reflexivity.
Defined.

Lemma particle_broadcast_to_nobody_witness :
  @getClosestPlayers empty_utility Demo.alice 10%float = [] /\
  exec (@particle empty_utility Demo.alice 3 (Some true)) Demo.host =
    Demo.host.
Proof.
  split; [reflexivity|].
  apply (@particle_broadcast_to_nobody empty_utility). reflexivity.
Defined.

Lemma createProgressBar_empty_uid_regenerated_witness :
  let h := mkHost 0 [] [] [] {[ 5 := {[ "uid" := DStr "" ]} ]} 0 in
  prop (store h !!! 5) "uid" = DStr "" /\
  result (@createProgressBar Demo.digest Demo.alice 5) h = DStr "h:{}0.61" /\
  result (@createProgressBar Demo.digest Demo.alice 5) h <> DStr "".
Proof.
  intros h. split; [reflexivity|].
  destruct (@createProgressBar_empty_uid_regenerated Demo.digest h
              Demo.alice 5) as (Hres & Hne & _).
  - reflexivity.
  - vm_compute. discriminate.
  - split; [|exact Hne]. rewrite Hres. reflexivity.
Defined.
